(** * Padel Buddy: the scheduling core of [src/App.tsx]

    A shallow embedding of the non-presentation logic of the [App]
    component (round-count calculation, roster validation, fair-rotation
    scheduling, the winners ledger and the derived statistics), followed
    by the properties established about it.

    Conventions of the embedding.
    - A JavaScript [number] that holds a count, an index or a dial value is
      an integer [Z]; [NaN], which [undefined + 1] produces, is kept as a
      separate constructor of [number].
    - A JavaScript object used as a dictionary ([playerStats], [stats],
      [wins]) is an association list in property-creation order, because
      [Object.entries] observes that order.  The key ["__proto__"], which
      JavaScript does not store as an own property, is not treated
      specially.
    - [Array.prototype.sort] is the stable sort required since ES2019.
    - [Math.random] is an explicit stream of draws threaded through the
      code in a state monad.
    - The React state of the component is a record; an event handler is a
      function from state to state (React batches the [setX] calls of one
      handler into one transition). *)

From Stdlib Require Import Ascii.
From stdpp Require Import base decidable option list sorting strings pretty gmap.

Local Open Scope Z_scope.

(* ================================================================== *)
(** ** JavaScript arrays *)

Section arrays.
Context {A : Type}.

(** The relative index computation shared by [slice(start, end)]. *)
Definition relative_index (len i : Z) : Z :=
  if i <? 0 then Z.max (len + i) 0 else Z.min i len.

(** [array.slice(start, end)]; [end_ = None] is the one-argument form. *)
Definition slice (start : Z) (end_ : option Z) (array : list A) : list A :=
  let len := Z.of_nat (length array) in
  let k := relative_index len start in
  let final := from_option (relative_index len) len end_ in
  take (Z.to_nat (final - k)) (drop (Z.to_nat k) array).

(** [[a[i], a[j]] = [a[j], a[i]]]: both reads happen before both writes. *)
Definition swap (i j : nat) (a : list A) : list A :=
  match a !! i, a !! j with
  | Some x, Some y => <[j := x]> (<[i := y]> a)
  | _, _ => a
  end.

(** [array.forEach((x, idx) => ...)] as a left fold that also passes the
    index; [from] is the index of the head. *)
Fixpoint forEach_from {S : Type} (from : nat) (f : A → nat → S → S)
    (array : list A) (s : S) : S :=
  match array with
  | [] => s
  | x :: rest => forEach_from (Datatypes.S from) f rest (f x from s)
  end.

Definition forEach {S : Type} (f : A → nat → S → S) (array : list A) (s : S) : S :=
  forEach_from 0 f array s.


(** The comparator protocol of [sort]: a positive result moves [b] before
    [a]; a negative, zero or [NaN] result keeps [a] first. *)
Variable positive_result : A → A → bool.

Fixpoint sort_insert (x : A) (sorted : list A) : list A :=
  match sorted with
  | [] => [x]
  | y :: rest =>
      if positive_result x y then y :: sort_insert x rest else x :: y :: rest
  end.

(** Stable sort: every element is inserted in front of the already sorted
    elements that followed it, and moves right only past strictly smaller
    ones. *)
Definition sort (array : list A) : list A := foldr sort_insert [] array.
End arrays.

(* ================================================================== *)
(** ** JavaScript numbers and dictionary objects *)

Inductive number := Num (z : Z) | NaN.

Global Instance number_eq_dec : EqDecision number.
Proof. solve_decision. Defined.

(** [ToNumber] of a property read; a missing property reads [undefined]. *)
Definition to_number (v : option number) : number :=
  match v with Some n => n | None => NaN end.

Definition num_succ (n : number) : number :=
  match n with Num z => Num (z + 1) | NaN => NaN end.

Definition num_sub (a b : number) : number :=
  match a, b with Num x, Num y => Num (x - y) | _, _ => NaN end.

Definition num_positive (n : number) : bool :=
  match n with Num z => 0 <? z | NaN => false end.

Module Obj.
(** Own properties in creation order. *)
Definition t := list (string * number).

Definition empty : t := [].

(** [o[k]] *)
Fixpoint get (o : t) (k : string) : option number :=
  match o with
  | [] => None
  | (k', v) :: rest => if decide (k' = k) then Some v else get rest k
  end.

(** [o[k] = v]: an existing property keeps its place, a new one is
    created last. *)
Fixpoint set (k : string) (v : number) (o : t) : t :=
  match o with
  | [] => [(k, v)]
  | (k', v') :: rest =>
      if decide (k' = k) then (k', v) :: rest else (k', v') :: set k v rest
  end.

(** [o[k]++] *)
Definition incr (k : string) (o : t) : t :=
  set k (num_succ (to_number (get o k))) o.

(** A canonical array index: the decimal numeral of an integer below
    [2^32 - 1], without leading zeros. *)
Fixpoint digits (s : string) (acc : N) : option N :=
  match s with
  | EmptyString => Some acc
  | String c rest =>
      match Ascii.is_nat c with
      | Some d => digits rest (acc * 10 + N.of_nat d)%N
      | None => None
      end
  end.

Definition array_index (k : string) : option N :=
  match k with
  | EmptyString => None
  | String c rest =>
      if decide (c = "0"%char ∧ rest ≠ EmptyString) then None
      else n ← digits k 0%N; guard (n <? 4294967295)%N;; Some n
  end.

(** [Object.entries(o)]: integer-like keys first in ascending numeric
    order, then the other keys in creation order. *)
Definition entries (o : t) : list (string * number) :=
  let indexed := omap (λ kv, n ← array_index kv.1; Some (n, kv)) o in
  let named := filter (λ kv, array_index kv.1 = None) o in
  (snd <$> sort (λ a b, (b.1 <? a.1)%N) indexed) ++ named.
End Obj.

(* ================================================================== *)
(** ** [Math.random] *)

(** The source of randomness: [draws n] drives the [n]-th call of
    [Math.random]; [calls] counts the calls made so far. *)
Record rng := Rng { draws : nat → nat; calls : nat }.

Definition Rand (A : Type) : Type := rng → A * rng.

Global Instance Rand_ret : MRet Rand := λ A x g, (x, g).

Global Instance Rand_bind : MBind Rand :=
  λ A B k m g, let '(x, g') := m g in k x g'.

(** [Math.floor(Math.random() * k)]: some integer in [0, k). *)
Definition random_below (k : nat) : Rand nat :=
  λ g, ((draws g (calls g) `mod` k)%nat, Rng (draws g) (S (calls g))).

(* ================================================================== *)
(** ** The component *)

(** [interface Match] and [interface Schedule]. *)
Record Match := { courts : list (list string); resting : list string }.
Record Schedule := { rounds : list Match }.

(** [type CourtWinner = 1 | 2 | null]. *)
Inductive CourtWinner := Team1 | Team2 | Unset.

Global Instance CourtWinner_eq_dec : EqDecision CourtWinner.
Proof. solve_decision. Defined.

(** What a position of a row of [winners] can hold at run time: a
    [CourtWinner], [undefined], or nothing at all (a hole left by an
    assignment past the end of the row). *)
Inductive slot := Elem (w : CourtWinner) | Undefined | Hole.

Global Instance slot_eq_dec : EqDecision slot.
Proof. solve_decision. Defined.

(** [shuffleArray]: Fisher-Yates from the last index down to 1. *)
Fixpoint shuffle_from {T} (i : nat) (shuffled : list T) : Rand (list T) :=
  match i with
  | O => mret shuffled
  | S i' =>
      j ← random_below (S i);
      shuffle_from i' (swap i j shuffled)
  end.

Definition shuffleArray {T} (array : list T) : Rand (list T) :=
  shuffle_from (length array - 1)%nat array.

(** [parsePlayers] *)
Definition is_separator (c : ascii) : bool :=
  bool_decide (c = ","%char) || bool_decide (c = "010"%char).

(** [input.split(/[,\n]/)]: always at least one piece. *)
Fixpoint split_go (cur : string) (s : string) : list string :=
  match s with
  | EmptyString => [String.rev cur]
  | String c rest =>
      if is_separator c then String.rev cur :: split_go EmptyString rest
      else split_go (String c cur) rest
  end.

Definition split (s : string) : list string := split_go EmptyString s.

(** The white space [trim] removes, restricted to the ASCII range: tab,
    line feed, vertical tab, form feed, carriage return and space. *)
Definition is_white (c : ascii) : bool := Ascii.is_space c.

Fixpoint trim_start (s : string) : string :=
  match s with
  | String c rest => if is_white c then trim_start rest else s
  | EmptyString => EmptyString
  end.

Definition trim (s : string) : string :=
  String.rev (trim_start (String.rev (trim_start s))).

Definition parsePlayers (input : string) : list string :=
  filter (λ name, (0 < String.length name)%nat) (trim <$> split input).

(** [calculateRounds] *)
Definition calculateRounds (durationHours roundDuration courts : Z) : Z :=
  let rounds := (durationHours * 60) / roundDuration in
  let rounds := rounds / courts * courts in
  if rounds <? courts then courts else rounds.

(** [validatePlayers]; [None] is [null]. *)
Definition validatePlayers (playerNames : list string) (courts : Z) : option string :=
  let len := Z.of_nat (length playerNames) in
  if len <? 4 then
    Some ("Please enter at least 4 players. You entered " +:+ pretty len +:+ ".")
  else if courts <? 1 then
    Some "There must be at least 1 court."
  else if len <? courts * 4 then
    Some ("You need at least " +:+ pretty (courts * 4) +:+ " players for "
          +:+ pretty courts +:+ " courts (4 per court).")
  else if len / 4 <? courts then
    Some ("Too many courts for the number of players. Max courts: "
          +:+ pretty (len / 4))
  else
    let uniqueNames : gset string := list_to_set playerNames in
    if bool_decide (size uniqueNames ≠ length playerNames) then
      Some "Please ensure all player names are unique."
    else None.

(** [generateSchedule] *)

(** [playerNames.forEach(name => { playerStats[name] = 0; })] *)
Definition zeroed (playerNames : list string) : Obj.t :=
  foldl (λ playerStats name, Obj.set name (Num 0) playerStats) Obj.empty playerNames.

(** The comparator [(a, b) => playerStats[a] - playerStats[b]]. *)
Definition byGamesPlayed (playerStats : Obj.t) (a b : string) : number :=
  num_sub (to_number (Obj.get playerStats a)) (to_number (Obj.get playerStats b)).

Definition sortedPlayers (playerNames : list string) (playerStats : Obj.t) : list string :=
  sort (λ a b, num_positive (byGamesPlayed playerStats a b)) playerNames.

(** [selectedPlayers.forEach(player => { playerStats[player]++; })] *)
Definition played (selectedPlayers : list string) (playerStats : Obj.t) : Obj.t :=
  foldl (λ playerStats player, Obj.incr player playerStats) playerStats selectedPlayers.

(** The inner loop [for (let c = 0; c < courts; c++)]. *)
Definition assignCourts (courts : Z) (shuffledSelected : list string) : list (list string) :=
  (λ c : nat, slice (Z.of_nat c * 4) (Some ((Z.of_nat c + 1) * 4)) shuffledSelected)
    <$> seq 0 (Z.to_nat courts).

(** One iteration of the outer loop: the new round and the updated
    [playerStats]. *)
Definition scheduleRound (playerNames : list string) (courts : Z)
    (playerStats : Obj.t) : Rand (Match * Obj.t) :=
  let sortedPlayers := sortedPlayers playerNames playerStats in
  let selectedPlayers := slice 0 (Some (courts * 4)) sortedPlayers in
  let restingPlayers := slice (courts * 4) None sortedPlayers in
  shuffledSelected ← shuffleArray selectedPlayers;
  let courtAssignments := assignCourts courts shuffledSelected in
  mret (Build_Match courtAssignments restingPlayers, played selectedPlayers playerStats).

(** [n] iterations of [for (let round = 0; round < rounds; round++)], from
    the loop state [(roundsArr, playerStats)]. *)
Fixpoint scheduleRounds (n : nat) (playerNames : list string) (courts : Z)
    (roundsArr : list Match) (playerStats : Obj.t) : Rand (list Match * Obj.t) :=
  match n with
  | O => mret (roundsArr, playerStats)
  | S n' =>
      '(round, playerStats') ← scheduleRound playerNames courts playerStats;
      scheduleRounds n' playerNames courts (roundsArr ++ [round]) playerStats'
  end.

Definition generateSchedule (playerNames : list string) (courts rounds : Z) : Rand Schedule :=
  '(roundsArr, _) ← scheduleRounds (Z.to_nat rounds) playerNames courts [] (zeroed playerNames);
  mret (Build_Schedule roundsArr).

(** *** Component state *)

Inductive exn := TypeError | RangeError.

Module St.
(** The [useState] cells of [App]. *)
Record t := Make {
  players : list string;
  playerInput : string;
  courts : Z;
  duration : Z;
  roundDuration : Z;
  schedule : option Schedule;
  error : string;
  winners : list (list slot);
  numRounds : Z
}.

Definition initial : t :=
  Make [] "" 2 2 15 None "" [] 0.

(** What the three range inputs guarantee: their [onChange] handlers
    clamp to [1..maxCourts], [1..8] and [5..60]. *)
Definition dials_ok (s : t) : Prop :=
  1 ≤ courts s ∧ 1 ≤ duration s ≤ 8 ∧ 5 ≤ roundDuration s ≤ 60.
End St.

(** [Array(n).fill(v)]; a negative length is a [RangeError]. *)
Definition array_fill {A} (n : Z) (v : A) : exn + list A :=
  if (n <? 0) || (4294967295 <? n) then inl RangeError
  else inr (replicate (Z.to_nat n) v).

(** [Array(rounds).fill(null).map(() => Array(courts).fill(null))]: the
    inner arrays are built one per outer element, so none is built when
    [rounds] is 0. *)
Definition freshWinners (rounds courts : Z) : exn + list (list slot) :=
  match array_fill rounds tt with
  | inl e => inl e
  | inr outer =>
      match outer with
      | [] => inr []
      | _ :: _ =>
          match array_fill courts (Elem Unset) with
          | inl e => inl e
          | inr row => inr ((λ _, row) <$> outer)
          end
      end
  end.

(** The outcome of an event handler: the state after the queued updates
    are applied, and the exception that escaped, if any. *)
Definition outcome : Type := St.t * option exn.

(** A string or [null] in a condition: [null] and the empty string are
    falsy. *)
Definition truthy (v : option string) : bool :=
  match v with
  | None | Some EmptyString => false
  | Some (String _ _) => true
  end.

(** [handleSubmit] *)
Definition handleSubmit (s : St.t) : Rand outcome :=
  let playerNames := parsePlayers (St.playerInput s) in
  let validationError := validatePlayers playerNames (St.courts s) in
  if truthy validationError then
    mret (St.Make (St.players s) (St.playerInput s) (St.courts s) (St.duration s)
            (St.roundDuration s) (St.schedule s) (default "" validationError)
            (St.winners s) (St.numRounds s), None)
  else
    let rounds := calculateRounds (St.duration s) (St.roundDuration s) (St.courts s) in
    newSchedule ← generateSchedule playerNames (St.courts s) rounds;
    match freshWinners rounds (St.courts s) with
    | inr fresh =>
        mret (St.Make playerNames (St.playerInput s) (St.courts s) (St.duration s)
                (St.roundDuration s) (Some newSchedule) "" fresh rounds, None)
    | inl e =>
        mret (St.Make playerNames (St.playerInput s) (St.courts s) (St.duration s)
                (St.roundDuration s) (Some newSchedule) "" (St.winners s) rounds,
              Some e)
    end.

(** [handleRegenerate] *)
Definition handleRegenerate (s : St.t) : Rand outcome :=
  if bool_decide (St.courts s * 4 ≤ Z.of_nat (length (St.players s))) then
    let rounds := calculateRounds (St.duration s) (St.roundDuration s) (St.courts s) in
    newSchedule ← generateSchedule (St.players s) (St.courts s) rounds;
    match freshWinners rounds (St.courts s) with
    | inr fresh =>
        mret (St.Make (St.players s) (St.playerInput s) (St.courts s) (St.duration s)
                (St.roundDuration s) (Some newSchedule) (St.error s) fresh rounds, None)
    | inl e =>
        mret (St.Make (St.players s) (St.playerInput s) (St.courts s) (St.duration s)
                (St.roundDuration s) (Some newSchedule) (St.error s) (St.winners s) rounds,
              Some e)
    end
  else mret (s, None).

(** [getPlayerStats]; [{}] is [Obj.empty]. *)
Definition getPlayerStats (s : St.t) : Obj.t :=
  match St.schedule s with
  | None => Obj.empty
  | Some schedule =>
      let stats := zeroed (St.players s) in
      foldl (λ stats round,
               foldl (λ stats player, Obj.incr player stats) stats (concat (courts round)))
            stats (rounds schedule)
  end.

(** The body of the inner [forEach] of [getPlayerWins].  A hole is not
    visited; an array, even empty, is truthy. *)
Definition creditCourt (round : Match) (winner : slot) (courtIdx : nat) (wins : Obj.t) : Obj.t :=
  match winner with
  | Hole => wins
  | _ =>
      match courts round !! courtIdx with
      | None => wins
      | Some court =>
          match winner with
          | Elem Team1 =>
              foldl (λ wins player, Obj.incr player wins) wins (slice 0 (Some 2) court)
          | Elem Team2 =>
              foldl (λ wins player, Obj.incr player wins) wins (slice 2 (Some 4) court)
          | _ => wins
          end
      end
  end.

(** [getPlayerWins] *)
Definition getPlayerWins (s : St.t) : Obj.t :=
  match St.schedule s with
  | None => Obj.empty
  | Some schedule =>
      let wins := zeroed (St.players s) in
      forEach (λ roundWinners roundIdx wins,
                 match rounds schedule !! roundIdx with
                 | None => wins
                 | Some round => forEach (creditCourt round) roundWinners wins
                 end)
              (St.winners s) wins
  end.

(** [getLeaderboard]: [Object.entries(wins).sort((a, b) => b[1] - a[1])]. *)
Definition getLeaderboard (s : St.t) : list (string * number) :=
  let wins := getPlayerWins s in
  sort (λ a b, num_positive (num_sub b.2 a.2)) (Obj.entries wins).

(** [setCourtWinner] *)

(** [[...arr]]: a hole is read as [undefined]. *)
Definition spread (arr : list slot) : list slot :=
  (λ x, match x with Hole => Undefined | _ => x end) <$> arr.

(** [row[courtIdx] = winner].  An index past the end extends the array
    and leaves holes in between; a key that is not an array index
    (negative, or [2^32 - 1] and above) becomes an ordinary property, which
    no element, [length], [forEach] or spread ever shows. *)
Definition assign (courtIdx : Z) (winner : slot) (row : list slot) : list slot :=
  if (courtIdx <? 0) || (4294967295 <=? courtIdx) then row
  else
    let i := Z.to_nat courtIdx in
    if bool_decide (i < length row)%nat then <[i := winner]> row
    else row ++ replicate (i - length row) Hole ++ [winner].

(** [array[idx]] for a number [idx]. *)
Definition at_index {A} (array : list A) (idx : Z) : option A :=
  if idx <? 0 then None else array !! Z.to_nat idx.

(** The updater passed to [setWinners]. *)
Definition updateWinners (roundIdx courtIdx : Z) (winner : CourtWinner)
    (prev : list (list slot)) : exn + list (list slot) :=
  let updated := spread <$> prev in
  match at_index updated roundIdx with
  | None => inl TypeError (* cannot set a property of [undefined] *)
  | Some row => inr (<[Z.to_nat roundIdx := assign courtIdx (Elem winner) row]> updated)
  end.

Definition setCourtWinner (roundIdx courtIdx : Z) (winner : CourtWinner) (s : St.t) : outcome :=
  match updateWinners roundIdx courtIdx winner (St.winners s) with
  | inl e => (s, Some e)
  | inr updated =>
      (St.Make (St.players s) (St.playerInput s) (St.courts s) (St.duration s)
         (St.roundDuration s) (St.schedule s) (St.error s) updated (St.numRounds s), None)
  end.

(** The [onChange] handlers of the three range inputs and of the text
    area, on an integer read from the input. *)
Definition maxCourts (s : St.t) : Z :=
  Z.max 1 (Z.of_nat (length (parsePlayers (St.playerInput s))) / 4).

Definition changeCourts (v : Z) (s : St.t) : St.t :=
  St.Make (St.players s) (St.playerInput s) (Z.max 1 (Z.min (maxCourts s) v)) (St.duration s)
    (St.roundDuration s) (St.schedule s) (St.error s) (St.winners s) (St.numRounds s).

Definition changeDuration (v : Z) (s : St.t) : St.t :=
  St.Make (St.players s) (St.playerInput s) (St.courts s) (Z.max 1 (Z.min 8 v))
    (St.roundDuration s) (St.schedule s) (St.error s) (St.winners s) (St.numRounds s).

Definition changeRoundDuration (v : Z) (s : St.t) : St.t :=
  St.Make (St.players s) (St.playerInput s) (St.courts s) (St.duration s)
    (Z.max 5 (Z.min 60 v)) (St.schedule s) (St.error s) (St.winners s) (St.numRounds s).

Definition changePlayerInput (v : string) (s : St.t) : St.t :=
  St.Make (St.players s) v (St.courts s) (St.duration s)
    (St.roundDuration s) (St.schedule s) (St.error s) (St.winners s) (St.numRounds s).

(* ================================================================== *)
(** * Vocabulary of the properties *)

(** ** Roster rules *)

(** The violations of the roster rules, in precedence order. *)
Inductive violation :=
  | TooFewPlayers | NoCourt | TooFewForCourts | TooManyCourts | DuplicateNames.

Definition precedence : list violation :=
  [TooFewPlayers; NoCourt; TooFewForCourts; TooManyCourts; DuplicateNames].

(** When a violation applies to a roster and a court count. *)
Definition applies (playerNames : list string) (courts : Z) (v : violation) : Prop :=
  match v with
  | TooFewPlayers => Z.of_nat (length playerNames) < 4
  | NoCourt => courts < 1
  | TooFewForCourts => Z.of_nat (length playerNames) < courts * 4
  | TooManyCourts => courts > Z.of_nat (length playerNames) / 4
  | DuplicateNames => ¬ NoDup playerNames
  end.

Global Instance applies_dec names c v : Decision (applies names c v).
Proof. destruct v; simpl; apply _. Defined.

(** The message reported for a violation. *)
Definition report (playerNames : list string) (courts : Z) (v : violation) : string :=
  match v with
  | TooFewPlayers =>
      "Please enter at least 4 players. You entered "
      +:+ pretty (Z.of_nat (length playerNames)) +:+ "."
  | NoCourt => "There must be at least 1 court."
  | TooFewForCourts =>
      "You need at least " +:+ pretty (courts * 4) +:+ " players for "
      +:+ pretty courts +:+ " courts (4 per court)."
  | TooManyCourts =>
      "Too many courts for the number of players. Max courts: "
      +:+ pretty (Z.of_nat (length playerNames) / 4)
  | DuplicateNames => "Please ensure all player names are unique."
  end.

(** The first violation that applies, in precedence order. *)
Definition first_violation (playerNames : list string) (courts : Z) : option violation :=
  head (filter (applies playerNames courts) precedence).

(** ** Rounds and running counts *)

(** How many times [p] occurs in [l]. *)
Definition times (p : string) (l : list string) : nat := length (filter (p =.) l).


(** The shape of a well-formed round for a roster and a court count. *)
Definition round_ok (names : list string) (n : nat) (round : Match) : Prop :=
  concat (courts round) ++ resting round ≡ₚ names
  ∧ NoDup (concat (courts round) ++ resting round)
  ∧ length (courts round) = n
  ∧ Forall (λ court, length court = 4%nat ∧ NoDup court) (courts round)
  ∧ length (concat (courts round)) = (n * 4)%nat.

(** A stream of draws for the examples. *)
Definition demo_rng : rng := Rng (λ n, (7 * n + 3)%nat) 0.


(** Every player of the roster has a numeric count. *)
Definition tracked (names : list string) (playerStats : Obj.t) : Prop :=
  ∀ p, p ∈ names → ∃ z, Obj.get playerStats p = Some (Num z).



(** ** The ledger *)

(** The state [s] after [setWinners(winners)]. *)
Definition with_winners (s : St.t) (winners : list (list slot)) : St.t :=
  St.Make (St.players s) (St.playerInput s) (St.courts s) (St.duration s)
    (St.roundDuration s) (St.schedule s) (St.error s) winners (St.numRounds s).

(** A ledger of one round and two courts, and the state that holds it. *)
Definition ledger_1x2 : St.t :=
  St.Make ["A"; "B"; "C"; "D"; "E"; "F"; "G"; "H"] "A,B,C,D,E,F,G,H" 2 1 30
    (Some (Build_Schedule [Build_Match [["A"; "B"; "C"; "D"]; ["E"; "F"; "G"; "H"]] []]))
    "" [[Elem Unset; Elem Unset]] 2.



(** The ledger of a freshly generated schedule: every cell [null]. *)
Definition fresh_ledger (nRounds nCourts : Z) : list (list slot) :=
  replicate (Z.to_nat nRounds) (replicate (Z.to_nat nCourts) (Elem Unset)).

(** No JavaScript array has [2^32] elements or more. *)
Definition arrays_ok (s : St.t) : Prop :=
  Z.of_nat (length (St.players s)) < 4294967296
  ∧ Z.of_nat (length (parsePlayers (St.playerInput s))) < 4294967296.

(** The ledger of [s'] is the fresh ledger of the schedule of [s']. *)
Definition ledger_reset (s' : St.t) (schedule : Schedule) (nRounds nCourts : Z) : Prop :=
  St.schedule s' = Some schedule
  ∧ length (rounds schedule) = Z.to_nat nRounds
  ∧ Forall (λ round, length (courts round) = Z.to_nat nCourts) (rounds schedule)
  ∧ St.winners s' = fresh_ledger nRounds nCourts
  ∧ length (St.winners s') = Z.to_nat nRounds
  ∧ Forall (λ row, length row = Z.to_nat nCourts ∧ Forall (λ x, x = Elem Unset) row)
           (St.winners s').

(** A state with a schedule of 3 rounds on 1 court and two recorded
    winners; regenerating resets the ledger although rounds and courts do
    not change. *)
Definition played_state : St.t :=
  St.Make ["A"; "B"; "C"; "D"] "A,B,C,D" 1 1 20
    (Some (generateSchedule ["A"; "B"; "C"; "D"] 1 3 demo_rng).1)
    "" [[Elem Team1]; [Elem Team2]; [Elem Unset]] 3.

(** ** Wins *)

(** The cell of the ledger and the court of the schedule at a position. *)
Definition cell (ledger : list (list slot)) (r c : nat) : option slot :=
  ledger !! r ≫= λ row, row !! c.

Definition court_at (schedule : Schedule) (r c : nat) : option (list string) :=
  rounds schedule !! r ≫= λ round, courts round !! c.

(** A cell holding [winner] credits [p] on [court]: Team 1 is positions 0
    and 1, Team 2 positions 2 and 3; anything else credits nobody. *)
Definition credits (p : string) (court : list string) (winner : slot) : Prop :=
  match winner with
  | Elem Team1 => court !! 0%nat = Some p ∨ court !! 1%nat = Some p
  | Elem Team2 => court !! 2%nat = Some p ∨ court !! 3%nat = Some p
  | _ => False
  end.

Global Instance credits_dec p court winner : Decision (credits p court winner).
Proof. destruct winner as [[| |]| |]; simpl; apply _. Defined.

(** The cell at position [rc] has a court and credits [p] on it. *)
Definition credited (schedule : Schedule) (ledger : list (list slot)) (p : string)
    (rc : nat * nat) : Prop :=
  match court_at schedule rc.1 rc.2, cell ledger rc.1 rc.2 with
  | Some court, Some winner => credits p court winner
  | _, _ => False
  end.

Global Instance credited_dec schedule ledger p rc : Decision (credited schedule ledger p rc).
Proof.
  unfold credited.
  destruct (court_at schedule rc.1 rc.2), (cell ledger rc.1 rc.2); apply _.
Defined.



(** Every court of the schedule lists distinct players. *)
Definition courts_distinct (schedule : Schedule) : Prop :=
  Forall (λ round, Forall NoDup (courts round)) (rounds schedule).




(** ** Events *)

(** The events of the user interface. *)
Inductive event :=
  | Submit
  | Regenerate
  | SetWinner (roundIdx courtIdx : Z) (winner : CourtWinner)
  | ChangeCourts (v : Z)
  | ChangeDuration (v : Z)
  | ChangeRoundDuration (v : Z)
  | ChangePlayerInput (v : string).

(** The handler the component attaches to each event. *)
Definition handle (ev : event) (s : St.t) : Rand outcome :=
  match ev with
  | Submit => handleSubmit s
  | Regenerate => handleRegenerate s
  | SetWinner roundIdx courtIdx winner => mret (setCourtWinner roundIdx courtIdx winner s)
  | ChangeCourts v => mret (changeCourts v s, None)
  | ChangeDuration v => mret (changeDuration v s, None)
  | ChangeRoundDuration v => mret (changeRoundDuration v s, None)
  | ChangePlayerInput v => mret (changePlayerInput v s, None)
  end.

(** The states reached from the initial one, whatever the draws. *)
Inductive reachable : St.t → Prop :=
  | reachable_initial : reachable St.initial
  | reachable_handle ev s g : reachable s → reachable (handle ev s g).1.1.

(** What every reachable state satisfies: the dials are in range, the
    roster has no duplicate, and the courts of the schedule list distinct
    players. *)
Definition consistent (s : St.t) : Prop :=
  St.dials_ok s ∧ NoDup (St.players s)
  ∧ ∀ schedule, St.schedule s = Some schedule → courts_distinct schedule.

(** ** Further vocabulary *)


(** What a copy of a row holds where the row holds [x]. *)
Definition unhole (x : slot) : slot :=
  match x with Hole => Undefined | _ => x end.

(** The ledger has one row per round of the schedule, and [numRounds] is
    that number. *)
Definition ledger_rows_ok (s : St.t) : Prop :=
  ∀ schedule, St.schedule s = Some schedule →
    length (St.winners s) = length (rounds schedule)
    ∧ St.numRounds s = Z.of_nat (length (rounds schedule)).

(** Every round of the schedule deals the whole roster: its courts, of 4
    players each, followed by its resting list are a rearrangement of the
    roster. *)
Definition rounds_of_roster (s : St.t) : Prop :=
  ∀ schedule, St.schedule s = Some schedule →
    Forall (λ round, concat (courts round) ++ resting round ≡ₚ St.players s
                     ∧ Forall (λ court, length court = 4%nat) (courts round))
           (rounds schedule).

(** The state reached by typing five names, dialling one court and
    submitting. *)
Definition submitted_state : St.t :=
  (handle Submit
     (handle (ChangeCourts 1)
        (handle (ChangePlayerInput "Ann, Bob, Cy, Dee, Eve") St.initial demo_rng).1.1
        demo_rng).1.1
     demo_rng).1.1.




(** The characters of a string. *)
Definition chars (s : string) : list ascii := String.list_ascii_of_string s.

(** A name as [parsePlayers] delivers it: not empty, without separator,
    and without white space at either end. *)
Definition clean (name : string) : Prop :=
  name ≠ ""
  ∧ (∀ c, c ∈ chars name → is_separator c = false)
  ∧ (∀ c, head (chars name) = Some c → is_white c = false)
  ∧ (∀ c, last (chars name) = Some c → is_white c = false).

(** A name of ASCII characters only; on such names the white space of
    [is_white] is all the white space [trim] removes. *)
Definition plain (name : string) : Prop :=
  ∀ c, c ∈ chars name → (nat_of_ascii c < 128)%nat.

(** [names.join(sep)] for a one-character separator. *)
Fixpoint join (sep : ascii) (names : list string) : string :=
  match names with
  | [] => ""
  | [name] => name
  | name :: rest => name +:+ String sep (join sep rest)
  end.

(** A cell of the ledger that lies on a court of the schedule and holds a
    winner. *)
Definition decided (schedule : Schedule) (ledger : list (list slot))
    (rc : nat * nat) : Prop :=
  match court_at schedule rc.1 rc.2, cell ledger rc.1 rc.2 with
  | Some _, Some (Elem Team1) | Some _, Some (Elem Team2) => True
  | _, _ => False
  end.

Global Instance decided_dec schedule ledger rc : Decision (decided schedule ledger rc).
Proof.
  unfold decided.
  destruct (court_at schedule rc.1 rc.2), (cell ledger rc.1 rc.2) as [[[| |]| |]|];
    apply _.
Defined.

(* ================================================================== *)
(** * Properties *)

(** ** Examples of parsing and validation *)

Example validate_abc :
  validatePlayers ["A"; "B"; "C"] 1
  = Some "Please enter at least 4 players. You entered 3.".
Proof. vm_compute. reflexivity. Qed.

Example parse_ex :
  parsePlayers " Ann , Bob
,,Cy " = ["Ann"; "Bob"; "Cy"].
Proof. vm_compute. reflexivity. Qed.

Example validate_duplicate :
  validatePlayers ["A"; "B"; "A"; "C"] 1
  = Some "Please ensure all player names are unique.".
Proof. vm_compute. reflexivity. Qed.

(** Names are compared as they are: case matters. *)
Example validate_case_sensitive : validatePlayers ["a"; "B"; "A"; "C"] 1 = None.
Proof. vm_compute. reflexivity. Qed.

(** The caller trims before validating, so [" A "] and ["A"] collide. *)
Example validate_trimmed_duplicate :
  validatePlayers (parsePlayers " A ,B,A,C") 1
  = Some "Please ensure all player names are unique.".
Proof. vm_compute. reflexivity. Qed.

Example validate_courts :
  validatePlayers ["A"; "B"; "C"; "D"; "E"] 2
  = Some "You need at least 8 players for 2 courts (4 per court).".
Proof. vm_compute. reflexivity. Qed.

Example leaderboard_ex :
  getLeaderboard (with_winners ledger_1x2 [[Elem Team2; Elem Team1]])
  = [("C", Num 1); ("D", Num 1); ("E", Num 1); ("F", Num 1);
     ("A", Num 0); ("B", Num 0); ("G", Num 0); ("H", Num 0)].
Proof. vm_compute. reflexivity. Qed.

(** ** Round-count calculator *)



Lemma calculateRounds_ge_courts (d r c : Z) : c ≤ calculateRounds d r c.
Proof. unfold calculateRounds. destruct (Z.ltb_spec (d * 60 / r / c * c) c); lia. Qed.

Lemma calculateRounds_bound (d r c : Z) :
  0 ≤ d → 0 < r → 0 < c → calculateRounds d r c ≤ Z.max c (d * 60).
Proof.
  intros Hd Hr Hc. unfold calculateRounds.
  assert (d * 60 / r / c * c ≤ d * 60 / r).
  { rewrite Z.mul_comm. apply Z.mul_div_le. lia. }
  assert (d * 60 / r ≤ d * 60).
  { apply Z.div_le_upper_bound; [lia|]. nia. }
  destruct (Z.ltb_spec (d * 60 / r / c * c) c); lia.
Qed.

(** ** Roster validator *)

Lemma size_list_to_set_le (l : list string) :
  (size (list_to_set l : gset string) ≤ length l)%nat.
Proof.
  induction l as [|x l IH].
  - by rewrite list_to_set_nil, size_empty.
  - rewrite list_to_set_cons, length_cons.
    rewrite size_union_alt, size_singleton.
    pose proof (subseteq_size ((list_to_set l : gset string) ∖ {[x]}) (list_to_set l)) as Hle.
    specialize (Hle ltac:(set_solver)). lia.
Qed.

(** [new Set(l).size === l.length] exactly when [l] has no duplicate. *)
Lemma set_size_NoDup (l : list string) :
  size (list_to_set l : gset string) = length l ↔ NoDup l.
Proof.
  split; [|apply size_list_to_set].
  induction l as [|x l IH]; [constructor|].
  rewrite list_to_set_cons, length_cons. intros Hsz.
  pose proof (size_list_to_set_le l) as Hle.
  destruct (decide (x ∈ l)) as [Hin|Hnin].
  - replace ({[x]} ∪ (list_to_set l : gset string)) with (list_to_set l : gset string) in Hsz;
      [lia|set_solver].
  - rewrite size_union in Hsz by set_solver. rewrite size_singleton in Hsz.
    constructor; [done|]. apply IH. lia.
Qed.

(** C4.  [validatePlayers] returns [null] when no rule is violated and
    otherwise the message of the first violated rule in the order: fewer
    than 4 players, court count below 1, fewer than [courts * 4] players,
    more courts than [floor(players / 4)], a duplicate name (names compared
    as given, that is case-sensitively, on the trimmed names the caller
    passes); on ["A"; "B"; "C"] and 1 court it reports too few players
    with the actual count 3. *)
Theorem validatePlayers_first_violation (playerNames : list string) (courts : Z) :
  validatePlayers playerNames courts
  = report playerNames courts <$> first_violation playerNames courts
  ∧ validatePlayers ["A"; "B"; "C"] 1
    = Some (report ["A"; "B"; "C"] 1 TooFewPlayers)
  ∧ report ["A"; "B"; "C"] 1 TooFewPlayers
    = "Please enter at least 4 players. You entered 3.".
Proof.
  split; [|split; vm_compute; reflexivity].
  unfold validatePlayers, first_violation, precedence.
  rewrite !filter_cons, filter_nil. simpl.
  destruct (Z.ltb_spec (Z.of_nat (length playerNames)) 4);
    [rewrite decide_True by lia; done|rewrite decide_False by lia].
  destruct (Z.ltb_spec courts 1);
    [rewrite decide_True by lia; done|rewrite decide_False by lia].
  destruct (Z.ltb_spec (Z.of_nat (length playerNames)) (courts * 4));
    [rewrite decide_True by lia; done|rewrite decide_False by lia].
  destruct (Z.ltb_spec (Z.of_nat (length playerNames) / 4) courts);
    [rewrite decide_True by lia; done|rewrite decide_False by lia].
  case_bool_decide as Hsz.
  - rewrite decide_True; [done|]. by rewrite <- set_size_NoDup.
  - rewrite decide_False; [done|]. rewrite <- set_size_NoDup. tauto.
Qed.

Lemma validatePlayers_null (playerNames : list string) (courts : Z) :
  truthy (validatePlayers playerNames courts) = false →
  4 ≤ Z.of_nat (length playerNames) ∧ 1 ≤ courts
  ∧ courts * 4 ≤ Z.of_nat (length playerNames) ∧ NoDup playerNames.
Proof.
  unfold validatePlayers.
  destruct (Z.ltb_spec (Z.of_nat (length playerNames)) 4); [done|].
  destruct (Z.ltb_spec courts 1); [done|].
  destruct (Z.ltb_spec (Z.of_nat (length playerNames)) (courts * 4)); [done|].
  destruct (Z.ltb_spec (Z.of_nat (length playerNames) / 4) courts); [done|].
  case_bool_decide as Hsz; [done|]. intros _.
  apply set_size_NoDup in Hsz. split_and!; [lia|lia|lia|done].
Qed.

(** ** Arrays: slices, swaps, the stable sort *)

Section array_facts.
Context {A : Type}.
Implicit Types l : list A.

Lemma slice_prefix (k : Z) l : 0 ≤ k → slice 0 (Some k) l = take (Z.to_nat k) l.
Proof.
  intros Hk. unfold slice, relative_index. simpl.
  destruct (Z.ltb_spec k 0); [lia|].
  rewrite (Z.min_l 0) by lia. simpl. rewrite drop_0, Z.sub_0_r.
  destruct (Z.le_ge_cases k (Z.of_nat (length l))).
  - by rewrite Z.min_l by lia.
  - rewrite Z.min_r, Nat2Z.id by lia. rewrite !take_ge; [done|lia|lia].
Qed.

Lemma slice_suffix (k : Z) l : 0 ≤ k → slice k None l = drop (Z.to_nat k) l.
Proof.
  intros Hk. unfold slice, relative_index. simpl.
  destruct (Z.ltb_spec k 0); [lia|].
  destruct (Z.le_ge_cases k (Z.of_nat (length l))).
  - rewrite Z.min_l by lia. apply take_ge. rewrite length_drop. lia.
  - rewrite Z.min_r, Nat2Z.id by lia.
    rewrite drop_all, take_nil, drop_ge; [done|lia].
Qed.

Lemma slice_window (a b : Z) l :
  0 ≤ a ≤ b → b ≤ Z.of_nat (length l) →
  slice a (Some b) l = take (Z.to_nat (b - a)) (drop (Z.to_nat a) l).
Proof.
  intros Hab Hb. unfold slice, relative_index. simpl.
  destruct (Z.ltb_spec a 0); [lia|]. destruct (Z.ltb_spec b 0); [lia|].
  by rewrite !Z.min_l by lia.
Qed.

Lemma swap_perm (i j : nat) l : swap i j l ≡ₚ l.
Proof.
  unfold swap. destruct (l !! i) as [x|] eqn:Hi; [|done].
  destruct (l !! j) as [y|] eqn:Hj; [|done].
  by apply Permutation_insert_swap.
Qed.

Section sorting.
Variable f : A → A → bool.

Lemma sort_insert_perm x l : sort_insert f x l ≡ₚ x :: l.
Proof.
  induction l as [|y l IH]; simpl; [done|].
  destruct (f x y); [|done]. rewrite IH. apply Permutation_swap.
Qed.

Lemma sort_perm l : sort f l ≡ₚ l.
Proof.
  induction l as [|x l IH]; simpl; [done|].
  by rewrite sort_insert_perm, IH.
Qed.







(** With a comparator that compares a key, the result is ascending. *)
Variable key : A → Z.


End sorting.
End array_facts.

(** ** The shuffle and the court assignment *)

Lemma shuffle_from_perm {T} (i : nat) (l : list T) (g : rng) :
  (shuffle_from i l g).1 ≡ₚ l.
Proof.
  revert l g. induction i as [|i IH]; intros l g; simpl; [done|].
  unfold mbind, Rand_bind. simpl.
  rewrite IH. apply swap_perm.
Qed.

Lemma shuffleArray_perm {T} (l : list T) (g : rng) : (shuffleArray l g).1 ≡ₚ l.
Proof. apply shuffle_from_perm. Qed.

Lemma assignCourts_windows (n : nat) (l : list string) :
  (4 * n ≤ length l)%nat →
  assignCourts (Z.of_nat n) l = (λ c : nat, take 4 (drop (4 * c) l)) <$> seq 0 n.
Proof.
  intros Hlen. unfold assignCourts. rewrite Nat2Z.id.
  apply list_fmap_ext. intros i c Hc.
  apply lookup_seq in Hc as [-> Hc]. simpl.
  rewrite slice_window by lia. f_equal; [lia|]. f_equal. lia.
Qed.

Lemma windows_concat (n : nat) (l : list string) :
  concat ((λ c : nat, take 4 (drop (4 * c) l)) <$> seq 0 n) = take (4 * n) l.
Proof.
  induction n as [|n IH]; [done|].
  rewrite seq_S, fmap_app, concat_app, IH. simpl. rewrite app_nil_r.
  rewrite take_take_drop. f_equal. lia.
Qed.

Lemma assignCourts_concat (n : nat) (l : list string) :
  length l = (4 * n)%nat → concat (assignCourts (Z.of_nat n) l) = l.
Proof.
  intros Hlen. rewrite assignCourts_windows, windows_concat by lia.
  apply take_ge. lia.
Qed.

Lemma assignCourts_length (courts : Z) (l : list string) :
  length (assignCourts courts l) = Z.to_nat courts.
Proof. unfold assignCourts. by rewrite length_fmap, length_seq. Qed.

Lemma assignCourts_four (n : nat) (l : list string) :
  length l = (4 * n)%nat → Forall (λ court, length court = 4%nat) (assignCourts (Z.of_nat n) l).
Proof.
  intros Hlen. rewrite assignCourts_windows by lia.
  apply Forall_fmap, Forall_forall. intros c Hc. simpl.
  apply elem_of_seq in Hc. rewrite length_take, length_drop. lia.
Qed.

(** ** Dictionary objects *)

Lemma get_set (k k' : string) (v : number) (o : Obj.t) :
  Obj.get (Obj.set k v o) k' = if decide (k = k') then Some v else Obj.get o k'.
Proof.
  induction o as [|[k0 v0] o IH]; simpl.
  - repeat case_decide; congruence.
  - destruct (decide (k0 = k)) as [->|Hne]; simpl.
    + repeat case_decide; congruence.
    + rewrite IH. repeat case_decide; congruence.
Qed.


Lemma get_zeroed_from (names : list string) (o : Obj.t) (p : string) :
  Obj.get (foldl (λ playerStats name, Obj.set name (Num 0) playerStats) o names) p
  = if decide (p ∈ names) then Some (Num 0) else Obj.get o p.
Proof.
  revert o. induction names as [|x names IH]; intros o; simpl foldl.
  - case_decide as H; [by apply elem_of_nil in H|done].
  - rewrite IH, get_set.
    destruct (decide (p ∈ names)), (decide (x = p)), (decide (p ∈ x :: names));
      try done; set_solver.
Qed.

Lemma get_zeroed (names : list string) (p : string) :
  Obj.get (zeroed names) p = if decide (p ∈ names) then Some (Num 0) else None.
Proof. unfold zeroed. by rewrite get_zeroed_from. Qed.


Lemma times_app p l1 l2 : times p (l1 ++ l2) = (times p l1 + times p l2)%nat.
Proof. unfold times. by rewrite filter_app, length_app. Qed.

Lemma times_not_in p l : p ∉ l → times p l = 0%nat.
Proof.
  intros Hp. unfold times. induction l as [|x l IH]; [done|].
  rewrite not_elem_of_cons in Hp. destruct Hp as [Hne Hp].
  rewrite filter_cons_False by done. by apply IH.
Qed.

Lemma times_NoDup p l : NoDup l → p ∈ l → times p l = 1%nat.
Proof.
  intros Hnd Hp. apply list_elem_of_split in Hp as (l1 & l2 & ->).
  apply NoDup_app in Hnd as (_ & Hl1 & Hnd). apply NoDup_cons in Hnd as [Hl2 _].
  rewrite times_app. unfold times at 2. rewrite filter_cons_True by done. simpl.
  fold (times p l2). rewrite (times_not_in p l2) by done.
  rewrite (times_not_in p l1); [done|]. intros Hin. apply (Hl1 _ Hin). by left.
Qed.





(** ** One round of the scheduler *)

Lemma NoDup_concat_each (ls : list (list string)) : NoDup (concat ls) → Forall NoDup ls.
Proof.
  induction ls as [|l ls IH]; simpl; intros H; [constructor|].
  apply NoDup_app in H as (? & _ & ?). constructor; auto.
Qed.

Lemma sortedPlayers_perm (playerNames : list string) (playerStats : Obj.t) :
  sortedPlayers playerNames playerStats ≡ₚ playerNames.
Proof. apply sort_perm. Qed.

(** What one iteration produces, for a valid court count: the courts are
    cut from a permutation of the first [4 * courts] sorted players, the
    rest of the sorted players rest, and exactly the selected players are
    counted. *)
Lemma scheduleRound_spec (names : list string) (n : nat) (st : Obj.t) (g : rng) :
  (4 * n ≤ length names)%nat →
  ∃ shuffled,
    shuffled ≡ₚ take (4 * n) (sortedPlayers names st)
    ∧ (scheduleRound names (Z.of_nat n) st g).1
      = (Build_Match (assignCourts (Z.of_nat n) shuffled)
                     (drop (4 * n) (sortedPlayers names st)),
         played (take (4 * n) (sortedPlayers names st)) st).
Proof.
  intros Hlen. unfold scheduleRound, mbind, Rand_bind, mret, Rand_ret.
  rewrite slice_prefix, slice_suffix by lia.
  replace (Z.to_nat (Z.of_nat n * 4)) with (4 * n)%nat by lia.
  destruct (shuffleArray (take (4 * n) (sortedPlayers names st)) g) as [shuffled g'] eqn:Hsh.
  exists shuffled. split; [|done].
  pose proof (shuffleArray_perm (take (4 * n) (sortedPlayers names st)) g) as Hp.
  by rewrite Hsh in Hp.
Qed.

Lemma scheduleRound_ok (names : list string) (n : nat) (st : Obj.t) (g : rng) :
  NoDup names → (4 * n ≤ length names)%nat →
  round_ok names n (scheduleRound names (Z.of_nat n) st g).1.1.
Proof.
  intros Hnd Hlen.
  destruct (scheduleRound_spec names n st g Hlen) as (shuffled & Hperm & ->). simpl.
  pose proof (sortedPlayers_perm names st) as Hsorted.
  assert (Hsl : length shuffled = (4 * n)%nat).
  { rewrite Hperm, length_take, Hsorted. lia. }
  assert (Hall : concat (assignCourts (Z.of_nat n) shuffled)
                 ++ drop (4 * n) (sortedPlayers names st) ≡ₚ names).
  { rewrite assignCourts_concat by done. by rewrite Hperm, take_drop. }
  assert (Hnd' : NoDup (concat (assignCourts (Z.of_nat n) shuffled)
                        ++ drop (4 * n) (sortedPlayers names st))) by by rewrite Hall.
  unfold round_ok. simpl. split_and!; [done|done| | |].
  - by rewrite assignCourts_length, Nat2Z.id.
  - apply NoDup_app in Hnd' as (Hc & _ & _). apply NoDup_concat_each in Hc.
    pose proof (assignCourts_four n shuffled Hsl) as H4.
    apply Forall_forall. intros court Hin.
    rewrite Forall_forall in H4, Hc. auto.
  - rewrite assignCourts_concat by done. lia.
Qed.

(** ** The loop of the scheduler *)


Lemma scheduleRounds_unfold (n : nat) names c acc st g :
  scheduleRounds (S n) names c acc st g
  = let '(m, st1, g1) := scheduleRound names c st g in
    scheduleRounds n names c (acc ++ [m]) st1 g1.
Proof.
  simpl. unfold mbind, Rand_bind.
  by destruct (scheduleRound names c st g) as [[m st1] g1].
Qed.

Lemma scheduleRounds_each (P : Match → Prop) (n : nat) names c acc st g :
  (∀ st g, P (scheduleRound names c st g).1.1) →
  Forall P acc →
  Forall P (scheduleRounds n names c acc st g).1.1
  ∧ length (scheduleRounds n names c acc st g).1.1 = (length acc + n)%nat.
Proof.
  intros HP. revert acc st g. induction n as [|n IH]; intros acc st g Hacc; simpl.
  - split; [done|lia].
  - unfold mbind, Rand_bind. pose proof (HP st g) as Hm.
    destruct (scheduleRound names c st g) as [[m st1] g1]. simpl in Hm.
    destruct (IH (acc ++ [m]) st1 g1) as [H1 H2].
    { apply Forall_app. split; [done|]. by constructor. }
    split; [done|]. rewrite H2, length_app. simpl. lia.
Qed.

(** C2.  For a roster without duplicates of at least [courts * 4] names,
    [courts >= 1] and [rounds >= 0], [generateSchedule] returns exactly
    [rounds] rounds, and in each of them the court assignments followed by
    the resting list are a duplicate-free rearrangement of the roster,
    with exactly [courts] courts of exactly 4 distinct players each, so
    [courts * 4] assigned players. *)
Theorem generateSchedule_partition (playerNames : list string) (nc nr : Z) (g : rng) :
  NoDup playerNames →
  1 ≤ nc → nc * 4 ≤ Z.of_nat (length playerNames) → 0 ≤ nr →
  let schedule := (generateSchedule playerNames nc nr g).1 in
  Z.of_nat (length (rounds schedule)) = nr
  ∧ Forall (round_ok playerNames (Z.to_nat nc)) (rounds schedule).
Proof.
  intros Hnd Hc Hlen Hr. simpl.
  unfold generateSchedule, mbind, Rand_bind, mret, Rand_ret.
  destruct (scheduleRounds_each (round_ok playerNames (Z.to_nat nc)) (Z.to_nat nr)
              playerNames nc [] (zeroed playerNames) g) as [Hall Hn].
  - intros st g0. rewrite <- (Z2Nat.id nc) at 2 by lia.
    apply scheduleRound_ok; [done|lia].
  - constructor.
  - destruct (scheduleRounds (Z.to_nat nr) playerNames nc [] (zeroed playerNames) g)
      as [[rs st'] g']. simpl in *. split; [lia|done].
Qed.

Lemma generateSchedule_partition_witness :
  let schedule := (generateSchedule ["A"; "B"; "C"; "D"; "E"; "F"] 1 5 demo_rng).1 in
  Z.of_nat (length (rounds schedule)) = 5
  ∧ Forall (round_ok ["A"; "B"; "C"; "D"; "E"; "F"] (Z.to_nat 1)) (rounds schedule).
Proof.
  apply (generateSchedule_partition ["A"; "B"; "C"; "D"; "E"; "F"] 1 5 demo_rng).
  - apply (bool_decide_unpack _). vm_compute. exact I.
  - lia.
  - simpl. lia.
  - lia.
Defined.

(** ** Fair rotation *)


Lemma tracked_zeroed names : tracked names (zeroed names).
Proof. intros p Hp. exists 0. rewrite get_zeroed. by rewrite decide_True. Qed.

















(** ** Games played, derived from the schedule *)




(** ** Statistics without a schedule *)

(** C9.  While no schedule exists, [getPlayerStats] and [getPlayerWins]
    return the empty object and [getLeaderboard] the empty list. *)
Theorem no_schedule_empty_statistics (s : St.t) :
  St.schedule s = None →
  getPlayerStats s = Obj.empty ∧ getPlayerWins s = Obj.empty ∧ getLeaderboard s = [].
Proof.
  intros H. unfold getLeaderboard, getPlayerStats, getPlayerWins. rewrite H.
  split_and!; reflexivity.
Qed.

Lemma no_schedule_empty_statistics_witness :
  getPlayerStats St.initial = Obj.empty
  ∧ getPlayerWins St.initial = Obj.empty
  ∧ getLeaderboard St.initial = [].
Proof. apply (no_schedule_empty_statistics St.initial). reflexivity. Defined.

(** ** The winners ledger *)


Lemma at_index_Some {A} (l : list A) (i : Z) (x : A) :
  at_index l i = Some x ↔ 0 ≤ i ∧ l !! Z.to_nat i = Some x.
Proof. unfold at_index. destruct (Z.ltb_spec i 0); naive_solver lia. Qed.


Lemma length_spread (row : list slot) : length (spread row) = length row.
Proof. unfold spread. by rewrite length_fmap. Qed.

(** Copying a table without holes gives the same table. *)
Lemma spread_no_holes (winners : list (list slot)) :
  Forall (Forall (λ x, x ≠ Hole)) winners → spread <$> winners = winners.
Proof.
  intros H. induction H as [|row winners Hrow _ IH]; [done|].
  rewrite fmap_cons, IH. f_equal. unfold spread.
  induction Hrow as [|x row Hx _ IHrow]; [done|].
  rewrite fmap_cons, IHrow. by destruct x.
Qed.



(** ** Replacing the schedule *)

Lemma freshWinners_fresh (nRounds nCourts : Z) :
  0 ≤ nRounds ≤ 4294967295 → 0 ≤ nCourts ≤ 4294967295 →
  freshWinners nRounds nCourts = inr (fresh_ledger nRounds nCourts).
Proof.
  intros Hr Hc. unfold freshWinners, array_fill, fresh_ledger.
  replace ((nRounds <? 0) || (4294967295 <? nRounds)) with false
    by (symmetry; apply orb_false_iff; rewrite !Z.ltb_ge; lia).
  replace ((nCourts <? 0) || (4294967295 <? nCourts)) with false
    by (symmetry; apply orb_false_iff; rewrite !Z.ltb_ge; lia).
  destruct (Z.to_nat nRounds) as [|n]; [done|].
  change (replicate (S n) ()) with (() :: replicate n ()) at 1.
  cbv iota beta. by rewrite fmap_replicate.
Qed.

Lemma scheduleRound_courts (names : list string) (c : Z) (st : Obj.t) (g : rng) :
  length (courts (scheduleRound names c st g).1.1) = Z.to_nat c.
Proof.
  unfold scheduleRound, mbind, Rand_bind, mret, Rand_ret.
  destruct (shuffleArray _ g) as [shuffled g']. simpl. apply assignCourts_length.
Qed.

Lemma generateSchedule_shape (names : list string) (c r : Z) (g : rng) :
  length (rounds (generateSchedule names c r g).1) = Z.to_nat r
  ∧ Forall (λ round, length (courts round) = Z.to_nat c)
           (rounds (generateSchedule names c r g).1).
Proof.
  unfold generateSchedule, mbind, Rand_bind, mret, Rand_ret.
  destruct (scheduleRounds_each (λ round, length (courts round) = Z.to_nat c)
              (Z.to_nat r) names c [] (zeroed names) g) as [Hall Hl].
  - intros st g0. apply scheduleRound_courts.
  - constructor.
  - destruct (scheduleRounds (Z.to_nat r) names c [] (zeroed names) g) as [[rs st'] g'].
    simpl in *. by split.
Qed.

Lemma fresh_ledger_shape (nRounds nCourts : Z) :
  length (fresh_ledger nRounds nCourts) = Z.to_nat nRounds
  ∧ Forall (λ row, length row = Z.to_nat nCourts ∧ Forall (λ x, x = Elem Unset) row)
           (fresh_ledger nRounds nCourts).
Proof.
  unfold fresh_ledger. split; [apply length_replicate|].
  apply Forall_replicate. split; [apply length_replicate|by apply Forall_replicate].
Qed.

(** C8.  From a state whose dials are within their ranges, [handleSubmit]
    and [handleRegenerate] throw nothing and either leave both the
    schedule and the winners ledger as they were (the roster is rejected,
    or there are too few players to regenerate), or replace the schedule
    by the generated one and, in the same transition, the ledger by a
    table of exactly [rounds] rows of [courts] cells, all [null], whatever
    the previous ledger held and also when [rounds] and [courts] are
    unchanged. *)
Theorem schedule_replacement_resets_ledger (s : St.t) (g : rng) :
  St.dials_ok s → arrays_ok s →
  let nRounds := calculateRounds (St.duration s) (St.roundDuration s) (St.courts s) in
  (let '(s', thrown, _) := handleSubmit s g in
   thrown = None
   ∧ if truthy (validatePlayers (parsePlayers (St.playerInput s)) (St.courts s))
     then St.schedule s' = St.schedule s ∧ St.winners s' = St.winners s
     else ledger_reset s'
            (generateSchedule (parsePlayers (St.playerInput s)) (St.courts s) nRounds g).1
            nRounds (St.courts s))
  ∧ (let '(s', thrown, _) := handleRegenerate s g in
     thrown = None
     ∧ if bool_decide (St.courts s * 4 ≤ Z.of_nat (length (St.players s)))
       then ledger_reset s'
              (generateSchedule (St.players s) (St.courts s) nRounds g).1
              nRounds (St.courts s)
       else St.schedule s' = St.schedule s ∧ St.winners s' = St.winners s).
Proof.
  intros (Hc & Hd & Hr) (Hpl & Hin) nRounds.
  assert (Hlo : St.courts s ≤ nRounds) by apply calculateRounds_ge_courts.
  assert (Hhi : nRounds ≤ Z.max (St.courts s) (St.duration s * 60))
    by (apply calculateRounds_bound; lia).
  pose proof (fresh_ledger_shape nRounds (St.courts s)) as [Hfl Hfc].
  split.
  - unfold handleSubmit.
    destruct (truthy (validatePlayers (parsePlayers (St.playerInput s)) (St.courts s)))
      eqn:Hv; [done|].
    apply validatePlayers_null in Hv as (_ & _ & Hlen & _).
    unfold mbind, Rand_bind, mret, Rand_ret. fold nRounds.
    pose proof (generateSchedule_shape (parsePlayers (St.playerInput s)) (St.courts s)
                  nRounds g) as [Hn Hcs].
    destruct (generateSchedule (parsePlayers (St.playerInput s)) (St.courts s) nRounds g)
      as [sch g'].
    rewrite freshWinners_fresh by lia. simpl in *.
    split; [done|]. by unfold ledger_reset.
  - unfold handleRegenerate. case_bool_decide as Hlen; [|done].
    unfold mbind, Rand_bind, mret, Rand_ret. fold nRounds.
    pose proof (generateSchedule_shape (St.players s) (St.courts s) nRounds g) as [Hn Hcs].
    destruct (generateSchedule (St.players s) (St.courts s) nRounds g) as [sch g'].
    rewrite freshWinners_fresh by lia. simpl in *.
    split; [done|]. by unfold ledger_reset.
Qed.

Lemma schedule_replacement_resets_ledger_witness :
  let nRounds := calculateRounds 1 20 1 in
  (let '(s', thrown, _) := handleSubmit played_state demo_rng in
   thrown = None
   ∧ if truthy (validatePlayers (parsePlayers (St.playerInput played_state))
                  (St.courts played_state))
     then St.schedule s' = St.schedule played_state
          ∧ St.winners s' = St.winners played_state
     else ledger_reset s'
            (generateSchedule (parsePlayers (St.playerInput played_state))
               (St.courts played_state) nRounds demo_rng).1
            nRounds (St.courts played_state))
  ∧ (let '(s', thrown, _) := handleRegenerate played_state demo_rng in
     thrown = None
     ∧ if bool_decide (St.courts played_state * 4
                       ≤ Z.of_nat (length (St.players played_state)))
       then ledger_reset s'
              (generateSchedule (St.players played_state) (St.courts played_state)
                 nRounds demo_rng).1
              nRounds (St.courts played_state)
       else St.schedule s' = St.schedule played_state
            ∧ St.winners s' = St.winners played_state).
Proof.
  apply (schedule_replacement_resets_ledger played_state demo_rng).
  - unfold St.dials_ok. simpl. lia.
  - unfold arrays_ok. split; [simpl; lia|].
    replace (parsePlayers (St.playerInput played_state)) with ["A"; "B"; "C"; "D"]
      by (vm_compute; reflexivity).
    simpl. lia.
Defined.

(** ** Wins *)

(** *** What the two nested [forEach] add up *)




(** *** Counting cells *)








Lemma times_indicator p l : NoDup l → times p l = if decide (p ∈ l) then 1%nat else 0%nat.
Proof.
  intros Hnd. case_decide; [by apply times_NoDup|by apply times_not_in].
Qed.











(** ** Reachable states *)

Lemma generateSchedule_distinct (names : list string) (nc nr : Z) (g : rng) :
  NoDup names → 1 ≤ nc → nc * 4 ≤ Z.of_nat (length names) →
  courts_distinct (generateSchedule names nc nr g).1.
Proof.
  intros Hnd Hc Hlen. unfold courts_distinct.
  unfold generateSchedule, mbind, Rand_bind, mret, Rand_ret.
  destruct (scheduleRounds_each (round_ok names (Z.to_nat nc)) (Z.to_nat nr)
              names nc [] (zeroed names) g) as [Hall _].
  - intros st g0. rewrite <- (Z2Nat.id nc) at 2 by lia.
    apply scheduleRound_ok; [done|lia].
  - constructor.
  - destruct (scheduleRounds (Z.to_nat nr) names nc [] (zeroed names) g) as [[rs st'] g'].
    simpl in *. eapply Forall_impl; [exact Hall|].
    intros m (_ & _ & _ & H4 & _). eapply Forall_impl; [exact H4|]. by intros c [_ ?].
Qed.

Lemma consistent_handle (ev : event) (s : St.t) (g : rng) :
  consistent s → consistent (handle ev s g).1.1.
Proof.
  intros (Hd & Hnd & Hsch). destruct ev; simpl.
  - unfold handleSubmit.
    destruct (truthy (validatePlayers (parsePlayers (St.playerInput s)) (St.courts s)))
      eqn:Hv; [done|].
    apply validatePlayers_null in Hv as (_ & Hc & Hlen & Hnd').
    unfold mbind, Rand_bind, mret, Rand_ret.
    pose proof (generateSchedule_distinct (parsePlayers (St.playerInput s)) (St.courts s)
                  (calculateRounds (St.duration s) (St.roundDuration s) (St.courts s)) g
                  Hnd' Hc Hlen) as Hdist.
    destruct (generateSchedule _ _ _ g) as [sch g'].
    destruct (freshWinners _ _); simpl; (split; [done|]); (split; [done|]);
      by intros ? [= <-].
  - unfold handleRegenerate. case_bool_decide as Hlen; [|done].
    unfold mbind, Rand_bind, mret, Rand_ret. destruct Hd as (Hc & ?).
    pose proof (generateSchedule_distinct (St.players s) (St.courts s)
                  (calculateRounds (St.duration s) (St.roundDuration s) (St.courts s)) g
                  Hnd Hc Hlen) as Hdist.
    destruct (generateSchedule _ _ _ g) as [sch g'].
    destruct (freshWinners _ _); simpl; (split; [done|]); (split; [done|]);
      by intros ? [= <-].
  - unfold mret, Rand_ret, setCourtWinner. simpl.
    by destruct (updateWinners roundIdx courtIdx winner (St.winners s)).
  - unfold mret, Rand_ret. simpl. split; [|done].
    destruct Hd as (? & ? & ?). unfold St.dials_ok. simpl. lia.
  - unfold mret, Rand_ret. simpl. split; [|done].
    destruct Hd as (? & ? & ?). unfold St.dials_ok. simpl. lia.
  - unfold mret, Rand_ret. simpl. split; [|done].
    destruct Hd as (? & ? & ?). unfold St.dials_ok. simpl. lia.
  - unfold mret, Rand_ret. by simpl.
Qed.

(** Every state the component can reach is consistent, so the hypotheses
    on the dials and on the courts made above hold in every state the user
    can observe. *)
Lemma reachable_consistent (s : St.t) : reachable s → consistent s.
Proof.
  induction 1 as [|ev s g _ IH]; [|by apply consistent_handle].
  split; [unfold St.dials_ok; simpl; lia|]. split; [constructor|done].
Qed.

(* ================================================================== *)
(** * Further properties of the component *)

(** ** The shuffle *)

Lemma shuffle_from_rng {T} (i : nat) (l : list T) (g : rng) :
  calls (shuffle_from i l g).2 = (calls g + i)%nat
  ∧ draws (shuffle_from i l g).2 = draws g.
Proof.
  revert l g. induction i as [|i IH]; intros l g; simpl.
  - split; [lia|done].
  - unfold mbind, Rand_bind, random_below.
    destruct (IH (swap (S i) (draws g (calls g) `mod` S (S i))%nat l)
                 (Rng (draws g) (S (calls g)))) as [Hc Hd].
    cbv beta iota. rewrite Hc, Hd. simpl. split; [lia|done].
Qed.

(** X1.  [shuffleArray] returns a rearrangement of its argument, of the
    same length, and calls [Math.random] exactly [length - 1] times (not
    at all on an empty or one-element array). *)
Theorem shuffleArray_rearranges {T} (array : list T) (g : rng) :
  (shuffleArray array g).1 ≡ₚ array
  ∧ length (shuffleArray array g).1 = length array
  ∧ calls (shuffleArray array g).2 = (calls g + (length array - 1))%nat
  ∧ draws (shuffleArray array g).2 = draws g.
Proof.
  pose proof (shuffleArray_perm array g) as Hp.
  destruct (shuffle_from_rng (length array - 1) array g) as [Hc Hd].
  split_and!; [done|by rewrite Hp|done|done].
Qed.

(** ** The round count *)



(** ** The roster rules *)

(** X3.  [validatePlayers] accepts a roster exactly when it has at least
    4 names, no name twice, and a court count between 1 and a quarter of
    the number of names. *)
Theorem validatePlayers_accepts (playerNames : list string) (courts : Z) :
  validatePlayers playerNames courts = None
  ↔ 4 ≤ Z.of_nat (length playerNames) ∧ NoDup playerNames
    ∧ 1 ≤ courts ∧ courts * 4 ≤ Z.of_nat (length playerNames).
Proof.
  unfold validatePlayers.
  destruct (Z.ltb_spec (Z.of_nat (length playerNames)) 4); [split; [done|lia]|].
  destruct (Z.ltb_spec courts 1); [split; [done|lia]|].
  destruct (Z.ltb_spec (Z.of_nat (length playerNames)) (courts * 4)); [split; [done|lia]|].
  destruct (Z.ltb_spec (Z.of_nat (length playerNames) / 4) courts) as [Hq|Hq].
  { exfalso. assert (courts ≤ Z.of_nat (length playerNames) / 4); [|lia].
    apply Z.div_le_lower_bound; lia. }
  case_bool_decide as Hsz.
  - split; [done|]. intros (_ & Hnd & _). by apply set_size_NoDup in Hnd.
  - apply set_size_NoDup in Hsz. split; [|done]. intros _. split_and!; [lia|done|lia|lia].
Qed.

(** The first two characters of a message. *)
Lemma message_differs (a b : string) :
  (match a with
   | String x (String y _) => Some (x, y)
   | _ => None
   end)
  ≠ (match b with
     | String x (String y _) => Some (x, y)
     | _ => None
     end) →
  Some a ≠ Some b.
Proof. intros H [= ->]. by apply H. Qed.

(** X4.  On integer court counts the fourth rule is dead: whatever the
    roster and the court count, [validatePlayers] never returns the
    message "Too many courts for the number of players", because a court
    count above a quarter of the players is already reported by the third
    rule. *)
Theorem validatePlayers_never_too_many (playerNames : list string) (courts : Z)
    (shown : string) :
  validatePlayers playerNames courts
  ≠ Some ("Too many courts for the number of players. Max courts: " +:+ shown).
Proof.
  unfold validatePlayers.
  destruct (Z.ltb_spec (Z.of_nat (length playerNames)) 4);
    [by apply message_differs|].
  destruct (Z.ltb_spec courts 1); [by apply message_differs|].
  destruct (Z.ltb_spec (Z.of_nat (length playerNames)) (courts * 4));
    [by apply message_differs|].
  destruct (Z.ltb_spec (Z.of_nat (length playerNames) / 4) courts) as [Hq|Hq].
  { exfalso. assert (courts ≤ Z.of_nat (length playerNames) / 4); [|lia].
    apply Z.div_le_lower_bound; lia. }
  case_bool_decide; [by apply message_differs|done].
Qed.

(** ** The courts dial *)



(** ** Writing a cell of the ledger *)

Lemma spread_unhole (row : list slot) : spread row = unhole <$> row.
Proof. done. Qed.

Lemma spread_spread (row : list slot) : spread (spread row) = spread row.
Proof.
  unfold spread. rewrite <- list_fmap_compose. apply list_fmap_ext.
  intros i x _. by destruct x.
Qed.

Lemma spread_insert (row : list slot) (c : nat) (w : CourtWinner) :
  spread (<[c := Elem w]> row) = <[c := Elem w]> (spread row).
Proof. unfold spread. by rewrite list_fmap_insert. Qed.

Lemma with_winners_twice (s : St.t) (a b : list (list slot)) :
  with_winners (with_winners s a) b = with_winners s b.
Proof. done. Qed.

(** With both indices inside the table, the updater copies the table and
    replaces one element of one row. *)
Lemma setCourtWinner_in_range (s : St.t) (r c : nat) (w : CourtWinner) (row : list slot) :
  St.winners s !! r = Some row → (c < length row)%nat → Z.of_nat c < 4294967295 →
  setCourtWinner (Z.of_nat r) (Z.of_nat c) w s
  = (with_winners s (<[r := <[c := Elem w]> (spread row)]> (spread <$> St.winners s)), None).
Proof.
  intros Hrow Hc Hidx. unfold setCourtWinner, updateWinners.
  assert (Hsp : at_index (spread <$> St.winners s) (Z.of_nat r) = Some (spread row)).
  { apply at_index_Some. split; [lia|]. by rewrite Nat2Z.id, list_lookup_fmap, Hrow. }
  rewrite Hsp, Nat2Z.id. unfold assign.
  replace ((Z.of_nat c <? 0) || (4294967295 <=? Z.of_nat c)) with false
    by (symmetry; apply orb_false_iff; rewrite Z.ltb_ge, Z.leb_gt; lia).
  rewrite Nat2Z.id. by rewrite bool_decide_true by (rewrite length_spread; lia).
Qed.

(** X6.  With both indices inside the table, [setCourtWinner] throws
    nothing, keeps the number of rows and the length of every row, stores
    the winner in the addressed cell and leaves every other cell with what
    it held (a hole being read as [undefined] by the copy). *)
Theorem setCourtWinner_writes_one_cell (s : St.t) (r c : nat) (w : CourtWinner)
    (row : list slot) :
  St.winners s !! r = Some row → (c < length row)%nat → Z.of_nat c < 4294967295 →
  ∃ updated,
    setCourtWinner (Z.of_nat r) (Z.of_nat c) w s = (with_winners s updated, None)
    ∧ length updated = length (St.winners s)
    ∧ (∀ r', length <$> updated !! r' = length <$> St.winners s !! r')
    ∧ ∀ r' c', cell updated r' c'
               = if decide (r' = r ∧ c' = c) then Some (Elem w)
                 else unhole <$> cell (St.winners s) r' c'.
Proof.
  intros Hrow Hc Hidx. eexists. split; [by apply setCourtWinner_in_range|].
  pose proof (lookup_lt_Some _ _ _ Hrow) as Hr.
  split; [by rewrite length_insert, length_fmap|]. split.
  - intros r'. destruct (decide (r' = r)) as [->|Hne].
    + rewrite list_lookup_insert_eq by (by rewrite length_fmap).
      rewrite Hrow. simpl. by rewrite length_insert, length_spread.
    + rewrite list_lookup_insert_ne by done. rewrite list_lookup_fmap.
      destruct (St.winners s !! r'); simpl; [|done]. by rewrite length_spread.
  - intros r' c'. unfold cell. destruct (decide (r' = r)) as [->|Hne].
    + rewrite list_lookup_insert_eq by (by rewrite length_fmap).
      rewrite Hrow. simpl. destruct (decide (c' = c)) as [->|Hnc].
      * rewrite decide_True by done.
        apply list_lookup_insert_eq. by rewrite length_spread.
      * rewrite decide_False by tauto. rewrite list_lookup_insert_ne by done.
        by rewrite spread_unhole, list_lookup_fmap.
    + rewrite decide_False by tauto. rewrite list_lookup_insert_ne by done.
      rewrite list_lookup_fmap. destruct (St.winners s !! r'); simpl; [|done].
      by rewrite spread_unhole, list_lookup_fmap.
Qed.

Lemma setCourtWinner_writes_one_cell_witness :
  ∃ updated,
    setCourtWinner (Z.of_nat 0) (Z.of_nat 1) Team2 ledger_1x2
    = (with_winners ledger_1x2 updated, None)
    ∧ length updated = length (St.winners ledger_1x2)
    ∧ (∀ r', length <$> updated !! r' = length <$> St.winners ledger_1x2 !! r')
    ∧ ∀ r' c', cell updated r' c'
               = if decide (r' = 0%nat ∧ c' = 1%nat) then Some (Elem Team2)
                 else unhole <$> cell (St.winners ledger_1x2) r' c'.
Proof.
  apply (setCourtWinner_writes_one_cell ledger_1x2 0 1 Team2 [Elem Unset; Elem Unset]).
  - reflexivity.
  - simpl. lia.
  - lia.
Defined.

(** X7.  Last write wins: recording a winner in a cell of the table and
    then another in the same cell leaves the state that recording the
    second alone gives; no trace of the first remains. *)
Theorem setCourtWinner_last_write_wins (s : St.t) (r c : nat) (w1 w2 : CourtWinner)
    (row : list slot) :
  St.winners s !! r = Some row → (c < length row)%nat → Z.of_nat c < 4294967295 →
  setCourtWinner (Z.of_nat r) (Z.of_nat c) w2
    (setCourtWinner (Z.of_nat r) (Z.of_nat c) w1 s).1
  = setCourtWinner (Z.of_nat r) (Z.of_nat c) w2 s.
Proof.
  intros Hrow Hc Hidx.
  pose proof (lookup_lt_Some _ _ _ Hrow) as Hr.
  rewrite (setCourtWinner_in_range s r c w1 row Hrow Hc Hidx). simpl fst.
  rewrite (setCourtWinner_in_range _ r c w2 (<[c := Elem w1]> (spread row))).
  - rewrite (setCourtWinner_in_range s r c w2 row Hrow Hc Hidx).
    rewrite with_winners_twice. do 2 f_equal. simpl St.winners.
    rewrite list_fmap_insert, list_insert_insert_eq.
    rewrite spread_insert, list_insert_insert_eq, spread_spread.
    f_equal. rewrite <- list_fmap_compose. apply list_fmap_ext.
    intros i x _. apply spread_spread.
  - simpl. apply list_lookup_insert_eq. by rewrite length_fmap.
  - by rewrite length_insert, length_spread.
  - done.
Qed.

Lemma setCourtWinner_last_write_wins_witness :
  setCourtWinner (Z.of_nat 0) (Z.of_nat 1) Team1
    (setCourtWinner (Z.of_nat 0) (Z.of_nat 1) Team2 ledger_1x2).1
  = setCourtWinner (Z.of_nat 0) (Z.of_nat 1) Team1 ledger_1x2.
Proof.
  apply (setCourtWinner_last_write_wins ledger_1x2 0 1 Team2 Team1 [Elem Unset; Elem Unset]).
  - reflexivity.
  - simpl. lia.
  - lia.
Defined.

(** ** The ledger follows the schedule *)

(** X8.  No event takes the ledger out of step with the schedule: from a
    state with the dials in range in which the ledger has one row per
    round and [numRounds] is the number of rounds, every handler -
    submission, regeneration, recording a winner at any indices, moving a
    dial, typing - leads to such a state again. *)
Theorem ledger_rows_follow_schedule (ev : event) (s : St.t) (g : rng) :
  St.dials_ok s → arrays_ok s → ledger_rows_ok s →
  ledger_rows_ok (handle ev s g).1.1.
Proof.
  intros (Hc & Hd & Hr) (Hpl & Hin) Hok.
  set (nRounds := calculateRounds (St.duration s) (St.roundDuration s) (St.courts s)).
  assert (Hlo : St.courts s ≤ nRounds) by apply calculateRounds_ge_courts.
  assert (Hhi : nRounds ≤ Z.max (St.courts s) (St.duration s * 60))
    by (apply calculateRounds_bound; lia).
  destruct ev; simpl.
  - unfold handleSubmit.
    destruct (truthy (validatePlayers (parsePlayers (St.playerInput s)) (St.courts s)))
      eqn:Hv; [done|].
    apply validatePlayers_null in Hv as (_ & _ & Hlen & _).
    unfold mbind, Rand_bind, mret, Rand_ret. fold nRounds.
    pose proof (generateSchedule_shape (parsePlayers (St.playerInput s)) (St.courts s)
                  nRounds g) as [Hn _].
    destruct (generateSchedule (parsePlayers (St.playerInput s)) (St.courts s) nRounds g)
      as [sch g'].
    rewrite freshWinners_fresh by lia. simpl in *.
    intros ? [= <-]. simpl. unfold fresh_ledger. rewrite length_replicate. lia.
  - unfold handleRegenerate. case_bool_decide as Hlen; [|done].
    unfold mbind, Rand_bind, mret, Rand_ret. fold nRounds.
    pose proof (generateSchedule_shape (St.players s) (St.courts s) nRounds g) as [Hn _].
    destruct (generateSchedule (St.players s) (St.courts s) nRounds g) as [sch g'].
    rewrite freshWinners_fresh by lia. simpl in *.
    intros ? [= <-]. simpl. unfold fresh_ledger. rewrite length_replicate. lia.
  - unfold mret, Rand_ret, setCourtWinner, updateWinners. simpl.
    destruct (at_index (spread <$> St.winners s) roundIdx); [|done].
    simpl. intros sch Hs. destruct (Hok sch Hs) as [H1 H2].
    simpl. by rewrite length_insert, length_fmap.
  - done.
  - done.
  - done.
  - done.
Qed.

Lemma ledger_rows_follow_schedule_witness :
  ledger_rows_ok (handle (SetWinner 7 0 Team1) played_state demo_rng).1.1.
Proof.
  apply (ledger_rows_follow_schedule (SetWinner 7 0 Team1) played_state demo_rng).
  - unfold St.dials_ok. simpl. lia.
  - unfold arrays_ok. split; [simpl; lia|].
    replace (parsePlayers (St.playerInput played_state)) with ["A"; "B"; "C"; "D"]
      by (vm_compute; reflexivity).
    simpl. lia.
  - intros sch [= <-]. vm_compute. split; reflexivity.
Defined.

(** ** The schedule and the roster *)

Lemma generateSchedule_rounds_ok (names : list string) (nc nr : Z) (g : rng) :
  NoDup names → 1 ≤ nc → nc * 4 ≤ Z.of_nat (length names) →
  Forall (round_ok names (Z.to_nat nc)) (rounds (generateSchedule names nc nr g).1).
Proof.
  intros Hnd Hc Hlen.
  unfold generateSchedule, mbind, Rand_bind, mret, Rand_ret.
  destruct (scheduleRounds_each (round_ok names (Z.to_nat nc)) (Z.to_nat nr)
              names nc [] (zeroed names) g) as [Hall _].
  - intros st g0. rewrite <- (Z2Nat.id nc) at 2 by lia.
    apply scheduleRound_ok; [done|lia].
  - constructor.
  - by destruct (scheduleRounds (Z.to_nat nr) names nc [] (zeroed names) g)
      as [[rs st'] g'].
Qed.

Lemma round_ok_deals (names : list string) (n : nat) (rs : list Match) :
  Forall (round_ok names n) rs →
  Forall (λ round, concat (courts round) ++ resting round ≡ₚ names
                   ∧ Forall (λ court, length court = 4%nat) (courts round)) rs.
Proof.
  intros H. eapply Forall_impl; [exact H|].
  intros m (Hp & _ & _ & H4 & _). split; [done|].
  eapply Forall_impl; [exact H4|]. by intros c [? _].
Qed.

Lemma rounds_of_roster_handle (ev : event) (s : St.t) (g : rng) :
  consistent s → rounds_of_roster s → rounds_of_roster (handle ev s g).1.1.
Proof.
  intros (Hd & Hnd & _) Hok. destruct ev; simpl.
  - unfold handleSubmit.
    destruct (truthy (validatePlayers (parsePlayers (St.playerInput s)) (St.courts s)))
      eqn:Hv; [done|].
    apply validatePlayers_null in Hv as (_ & Hc & Hlen & Hnd').
    unfold mbind, Rand_bind, mret, Rand_ret.
    pose proof (generateSchedule_rounds_ok (parsePlayers (St.playerInput s)) (St.courts s)
                  (calculateRounds (St.duration s) (St.roundDuration s) (St.courts s)) g
                  Hnd' Hc Hlen) as Hall.
    destruct (generateSchedule _ _ _ g) as [sch g'].
    destruct (freshWinners _ _); simpl; intros ? [= <-]; simpl;
      by eapply round_ok_deals.
  - unfold handleRegenerate. case_bool_decide as Hlen; [|done].
    unfold mbind, Rand_bind, mret, Rand_ret. destruct Hd as (Hc & ?).
    pose proof (generateSchedule_rounds_ok (St.players s) (St.courts s)
                  (calculateRounds (St.duration s) (St.roundDuration s) (St.courts s)) g
                  Hnd Hc Hlen) as Hall.
    destruct (generateSchedule _ _ _ g) as [sch g'].
    destruct (freshWinners _ _); simpl; intros ? [= <-]; simpl;
      by eapply round_ok_deals.
  - unfold mret, Rand_ret, setCourtWinner. simpl.
    by destruct (updateWinners roundIdx courtIdx winner (St.winners s)).
  - done.
  - done.
  - done.
  - done.
Qed.

(** X9.  In every state the component can reach, whatever was typed,
    dialled, submitted, regenerated or recorded, the roster has no name
    twice and every round of the schedule on display deals exactly that
    roster: courts of 4 players followed by the resting players are a
    rearrangement of it.  In particular a dial moved after the schedule
    was generated does not invalidate the schedule. *)
Theorem reachable_rounds_of_roster (s : St.t) :
  reachable s → NoDup (St.players s) ∧ rounds_of_roster s.
Proof.
  intros Hreach. split; [by apply reachable_consistent|].
  induction Hreach as [|ev s g Hreach IH]; [done|].
  apply rounds_of_roster_handle; [by apply reachable_consistent|done].
Qed.


Lemma reachable_rounds_of_roster_witness :
  NoDup (St.players submitted_state) ∧ rounds_of_roster submitted_state.
Proof.
  apply (reachable_rounds_of_roster submitted_state).
  unfold submitted_state.
  apply reachable_handle, reachable_handle, reachable_handle, reachable_initial.
Defined.

Example submitted_state_roster :
  St.players submitted_state = ["Ann"; "Bob"; "Cy"; "Dee"; "Eve"]
  ∧ (length <$> (rounds <$> St.schedule submitted_state)) = Some 8%nat.
Proof. vm_compute. split; reflexivity. Qed.

(** ** Who plays and who rests *)



(** ** Games played, for any schedule *)







Lemma times_le_one p l : NoDup l → (times p l ≤ 1)%nat.
Proof. intros H. rewrite times_indicator by done. case_decide; lia. Qed.



(** ** Wins never exceed games *)








(** ** The leaderboard *)
















(** ** Parsing the text area *)

Lemma chars_rev_app (s1 s2 : string) :
  chars (String.rev_app s1 s2) = reverse (chars s1) ++ chars s2.
Proof.
  revert s2. induction s1 as [|c s1 IH]; intros s2; simpl; [done|].
  rewrite IH. unfold chars. simpl. rewrite reverse_cons, <- app_assoc. done.
Qed.

Lemma chars_rev (s : string) : chars (String.rev s) = reverse (chars s).
Proof. unfold String.rev. rewrite chars_rev_app. apply app_nil_r. Qed.

Lemma chars_nil (s : string) : chars s = [] → s = "".
Proof. by destruct s. Qed.

(** Every piece of [split] is free of separators. *)
Lemma split_go_pieces (cur s piece : string) :
  (∀ c, c ∈ chars cur → is_separator c = false) →
  piece ∈ split_go cur s → ∀ c, c ∈ chars piece → is_separator c = false.
Proof.
  revert cur. induction s as [|a s IH]; intros cur Hcur Hin c Hc; simpl in Hin.
  - apply list_elem_of_singleton in Hin as ->.
    rewrite chars_rev, elem_of_reverse in Hc. by apply Hcur.
  - destruct (is_separator a) eqn:Ha.
    + apply elem_of_cons in Hin as [->|Hin].
      * rewrite chars_rev, elem_of_reverse in Hc. by apply Hcur.
      * eapply (IH ""); [|done..]. intros c' Hc'. by apply elem_of_nil in Hc'.
    + eapply (IH (String a cur)); [|done..].
      intros c' Hc'. apply elem_of_cons in Hc' as [->|Hc']; [done|by apply Hcur].
Qed.

(** [trim_start] removes a prefix and leaves no white space in front. *)
Lemma trim_start_spec (s : string) :
  (∃ pre, chars s = pre ++ chars (trim_start s))
  ∧ ∀ c, head (chars (trim_start s)) = Some c → is_white c = false.
Proof.
  induction s as [|a s [[pre Hpre] Hhead]]; simpl.
  - split; [by exists []|done].
  - destruct (is_white a) eqn:Ha.
    + split; [|done]. exists (a :: pre). unfold chars in *. simpl. by rewrite Hpre.
    + split; [by exists []|]. unfold chars. simpl. by intros c [= <-].
Qed.

(** [trim] keeps a middle part of the string and leaves no white space at
    either end of it. *)
Lemma trim_spec (s : string) :
  (∃ pre post, chars s = pre ++ chars (trim s) ++ post)
  ∧ (∀ c, head (chars (trim s)) = Some c → is_white c = false)
  ∧ (∀ c, last (chars (trim s)) = Some c → is_white c = false).
Proof.
  unfold trim.
  destruct (trim_start_spec s) as [[pre Hpre] Hhead].
  destruct (trim_start_spec (String.rev (trim_start s))) as [[post Hpost] Htail].
  set (u := trim_start s) in *. set (v := trim_start (String.rev u)) in *.
  rewrite chars_rev in Hpost.
  assert (Hu : chars u = chars (String.rev v) ++ reverse post).
  { rewrite chars_rev. rewrite <- (reverse_involutive (chars u)), Hpost.
    by rewrite reverse_app. }
  split_and!.
  - exists pre, (reverse post). by rewrite Hpre, Hu.
  - intros c Hc. apply Hhead. rewrite Hu.
    destruct (chars (String.rev v)); [done|]. exact Hc.
  - intros c Hc. apply Htail. by rewrite chars_rev, last_reverse in Hc.
Qed.

(** X15.  Every name [parsePlayers] returns is clean: it is not empty,
    contains no comma and no line feed, and neither begins nor ends with
    white space. *)
Theorem parsePlayers_clean (input name : string) :
  name ∈ parsePlayers input → clean name.
Proof.
  unfold parsePlayers. intros Hin.
  apply list_elem_of_filter in Hin as [Hlen Hin].
  apply list_elem_of_fmap in Hin as (piece & -> & Hpiece).
  destruct (trim_spec piece) as ((pre & post & Hmid) & Hhead & Hlast).
  split_and!; [|  |done|done].
  - intros Heq. rewrite Heq in Hlen. simpl in Hlen. lia.
  - intros c Hc. eapply (split_go_pieces "" input piece); [|exact Hpiece|].
    + intros c' Hc'. by apply elem_of_nil in Hc'.
    + rewrite Hmid. apply elem_of_app. right. apply elem_of_app. by left.
Qed.

Lemma parsePlayers_clean_witness : clean "Bob".
Proof.
  apply (parsePlayers_clean " Ann , Bob
,,Cy " "Bob").
  apply (bool_decide_unpack _). vm_compute. exact I.
Defined.

Lemma app_String (a : ascii) (s t : string) : String a s +:+ t = String a (s +:+ t).
Proof. done. Qed.

Lemma app_empty_r (s : string) : s +:+ "" = s.
Proof. induction s as [|a s IH]; [done|]. by rewrite app_String, IH. Qed.

Lemma rev_app_rev_app (s a b : string) :
  String.rev_app (String.rev_app s a) b = String.rev_app a (s +:+ b).
Proof.
  revert a b. induction s as [|c s IH]; intros a b; [done|].
  simpl String.rev_app at 2. rewrite IH. by rewrite app_String.
Qed.

Lemma rev_rev_app (s : string) : String.rev (String.rev_app s "") = s.
Proof. unfold String.rev. rewrite rev_app_rev_app. simpl. apply app_empty_r. Qed.

(** A stretch without separator is read into the current piece. *)
Lemma split_go_app (cur s t : string) :
  (∀ c, c ∈ chars s → is_separator c = false) →
  split_go cur (s +:+ t) = split_go (String.rev_app s cur) t.
Proof.
  revert cur. induction s as [|a s IH]; intros cur Hs; [done|].
  rewrite app_String. simpl split_go.
  rewrite (Hs a) by (unfold chars; simpl; by left).
  rewrite IH; [done|]. intros c Hc. apply Hs. unfold chars in *. simpl. by right.
Qed.

Lemma split_join (sep : ascii) (names : list string) :
  is_separator sep = true → names ≠ [] →
  Forall (λ name, ∀ c, c ∈ chars name → is_separator c = false) names →
  split (join sep names) = names.
Proof.
  intros Hsep Hne Hall. unfold split.
  induction Hall as [|name rest Hname Hrest IH]; [done|].
  destruct rest as [|name' rest].
  - simpl join. rewrite <- (app_empty_r name) at 1.
    rewrite split_go_app by done. simpl. by rewrite rev_rev_app.
  - change (join sep (name :: name' :: rest))
      with (name +:+ String sep (join sep (name' :: rest))).
    rewrite split_go_app by done. simpl split_go. rewrite Hsep.
    rewrite rev_rev_app. f_equal. by apply IH.
Qed.

Lemma trim_start_id (s : string) :
  (∀ c, head (chars s) = Some c → is_white c = false) → trim_start s = s.
Proof.
  destruct s as [|a s]; [done|]. intros H. simpl.
  by rewrite (H a) by done.
Qed.

Lemma trim_clean (name : string) : clean name → trim name = name.
Proof.
  intros (_ & _ & Hhead & Hlast). unfold trim.
  rewrite (trim_start_id name Hhead). rewrite trim_start_id.
  - unfold String.rev at 2. apply rev_rev_app.
  - intros c. rewrite chars_rev, head_reverse. apply Hlast.
Qed.

Lemma trim_all_clean (names : list string) :
  Forall clean names →
  filter (λ name, (0 < String.length name)%nat) (trim <$> names) = names.
Proof.
  induction 1 as [|n ns Hn _ IH]; [done|].
  rewrite fmap_cons, (trim_clean n Hn), filter_cons_True; [by rewrite IH|].
  destruct Hn as (Hne & _). destruct n; [done|simpl; lia].
Qed.

(** X16.  Round trip: clean names of ASCII characters joined by commas,
    or by line feeds, parse back to the same list of names, in the same
    order; the empty list joins to the empty text, which parses to no
    name. *)
Theorem parsePlayers_join (sep : ascii) (names : list string) :
  is_separator sep = true → Forall clean names → Forall plain names →
  parsePlayers (join sep names) = names.
Proof.
  intros Hsep Hclean _. unfold parsePlayers.
  destruct names as [|name rest]; [done|].
  rewrite split_join; [|done|done|].
  - by apply trim_all_clean.
  - eapply Forall_impl; [exact Hclean|]. by intros n (_ & H & _).
Qed.

Lemma parsePlayers_join_witness :
  parsePlayers (join "010"%char ["Ann"; "Bob Jr"; "Cy"]) = ["Ann"; "Bob Jr"; "Cy"].
Proof.
  apply (parsePlayers_join "010"%char ["Ann"; "Bob Jr"; "Cy"]).
  - reflexivity.
  - repeat constructor; try done;
      intros c Hc; vm_compute in Hc;
      repeat (apply elem_of_cons in Hc as [->|Hc]; [reflexivity|]);
      try (by apply elem_of_nil in Hc); try (injection Hc as <-; reflexivity).
  - repeat (constructor;
              [intros c Hc; vm_compute in Hc;
               repeat (apply elem_of_cons in Hc as [->|Hc]; [vm_compute; lia|]);
               by apply elem_of_nil in Hc|]).
    constructor.
Defined.

(** ** Randomness consumed *)

Lemma scheduleRound_rng (names : list string) (n : nat) (st : Obj.t) (g : rng) :
  (4 * n ≤ length names)%nat →
  calls (scheduleRound names (Z.of_nat n) st g).2 = (calls g + (4 * n - 1))%nat
  ∧ draws (scheduleRound names (Z.of_nat n) st g).2 = draws g.
Proof.
  intros Hlen. unfold scheduleRound, mbind, Rand_bind, mret, Rand_ret.
  rewrite slice_prefix by lia.
  pose proof (shuffle_from_rng
                (length (take (Z.to_nat (Z.of_nat n * 4)) (sortedPlayers names st)) - 1)
                (take (Z.to_nat (Z.of_nat n * 4)) (sortedPlayers names st)) g) as [Hc Hd].
  fold (shuffleArray (take (Z.to_nat (Z.of_nat n * 4)) (sortedPlayers names st)) g) in Hc, Hd.
  destruct (shuffleArray _ g) as [shuffled g']. simpl in *.
  rewrite Hc, Hd, length_take, sortedPlayers_perm. split; [lia|done].
Qed.

Lemma scheduleRounds_rng (k : nat) (names : list string) (n : nat) acc (st : Obj.t)
    (g : rng) :
  (4 * n ≤ length names)%nat →
  calls (scheduleRounds k names (Z.of_nat n) acc st g).2 = (calls g + k * (4 * n - 1))%nat
  ∧ draws (scheduleRounds k names (Z.of_nat n) acc st g).2 = draws g.
Proof.
  intros Hlen. revert acc st g. induction k as [|k IH]; intros acc st g.
  - simpl. split; [lia|done].
  - rewrite scheduleRounds_unfold.
    destruct (scheduleRound_rng names n st g Hlen) as [Hc Hd].
    destruct (scheduleRound names (Z.of_nat n) st g) as [[m st1] g1]. simpl in Hc, Hd.
    destruct (IH (acc ++ [m]) st1 g1) as [Hc' Hd'].
    rewrite Hc', Hd', Hc, Hd. split; [lia|done].
Qed.

(** X17.  With at least [courts * 4] players and [courts >= 1],
    [generateSchedule] calls [Math.random] exactly
    [rounds * (courts * 4 - 1)] times, whatever the names and the draws:
    one shuffle of the selected players per round. *)
Theorem generateSchedule_draws (playerNames : list string) (nc nr : Z) (g : rng) :
  1 ≤ nc → nc * 4 ≤ Z.of_nat (length playerNames) → 0 ≤ nr →
  Z.of_nat (calls (generateSchedule playerNames nc nr g).2)
  = Z.of_nat (calls g) + nr * (nc * 4 - 1)
  ∧ draws (generateSchedule playerNames nc nr g).2 = draws g.
Proof.
  intros Hc Hlen Hr.
  destruct (scheduleRounds_rng (Z.to_nat nr) playerNames (Z.to_nat nc) []
              (zeroed playerNames) g ltac:(lia)) as [Hcalls Hdraws].
  rewrite Z2Nat.id in Hcalls, Hdraws by lia.
  unfold generateSchedule, mbind, Rand_bind, mret, Rand_ret.
  destruct (scheduleRounds (Z.to_nat nr) playerNames nc [] (zeroed playerNames) g)
    as [[rs st] g'].
  simpl in *. split; [|done]. rewrite Hcalls. nia.
Qed.

Lemma generateSchedule_draws_witness :
  Z.of_nat (calls (generateSchedule ["A"; "B"; "C"; "D"; "E"; "F"] 1 5 demo_rng).2)
  = Z.of_nat (calls demo_rng) + 5 * (1 * 4 - 1)
  ∧ draws (generateSchedule ["A"; "B"; "C"; "D"; "E"; "F"] 1 5 demo_rng).2
    = draws demo_rng.
Proof.
  apply (generateSchedule_draws ["A"; "B"; "C"; "D"; "E"; "F"] 1 5 demo_rng).
  - lia.
  - simpl. lia.
  - lia.
Defined.

(** ** Court places add up *)








(** ** An even share *)






(** ** From the text area to the schedule *)




(** ** Two wins for every result *)







